(** * Datalist autocomplete: cache, query coordinator and debounce

    A shallow embedding of [main.js]: the [CacheManagement] class, the
    [fetchData] / [search] / [fillOptions] functions around it, and the
    [debounce] wrapper, followed by the properties of the specification.

    JavaScript strings are sequences of UTF-16 code units; the built-ins the
    program calls on them ([Array.prototype.sort] without a comparator,
    [String.prototype.startsWith], [String.prototype.trim], [new Set]) are
    written out on that representation.  [String.prototype.toLowerCase]
    depends on the Unicode tables and is a parameter of the development;
    [ascii_toLowerCase] instantiates it on the ASCII range for the examples. *)

From Stdlib Require Import NArith String Ascii.
From stdpp Require Import base decidable numbers list sorting.

Local Open Scope N_scope.
Local Open Scope list_scope.

(** ** Strings *)

Definition code_unit := N.
Definition jsstring := list code_unit.

(** Reads an ASCII literal as a JavaScript string. *)
Definition js (s : string) : jsstring :=
  List.map N_of_ascii (list_ascii_of_string s).

(** Abstract relational comparison [px < py] of two strings: the first
    differing code unit decides, a proper prefix is smaller. *)
Fixpoint IsLessThan (px py : jsstring) : bool :=
  match px, py with
  | _, [] => false
  | [], _ :: _ => true
  | m :: px', n :: py' =>
      if m <? n then true
      else if n <? m then false
      else IsLessThan px' py'
  end.

(** [x] may stand before [y] in an array sorted without a comparator:
    [SortCompare x y] is not positive. *)
Definition str_le (x y : jsstring) : Prop := IsLessThan y x = false.

#[global] Instance str_le_dec x y : Decision (str_le x y).
Proof. unfold str_le. apply _. Defined.

(** [String.prototype.startsWith] at position 0. *)
Fixpoint startsWith (s searchString : jsstring) : bool :=
  match searchString, s with
  | [], _ => true
  | _ :: _, [] => false
  | n :: searchString', m :: s' =>
      if decide (m = n) then startsWith s' searchString' else false
  end.

(** White space and line terminators removed by [String.prototype.trim]. *)
Definition is_white_space (c : code_unit) : bool :=
  (c =? 0x0009) || (c =? 0x000A) || (c =? 0x000B) || (c =? 0x000C)
  || (c =? 0x000D) || (c =? 0x0020) || (c =? 0x00A0) || (c =? 0x1680)
  || ((0x2000 <=? c) && (c <=? 0x200A))
  || (c =? 0x2028) || (c =? 0x2029) || (c =? 0x202F) || (c =? 0x205F)
  || (c =? 0x3000) || (c =? 0xFEFF).

Fixpoint trimStart (s : jsstring) : jsstring :=
  match s with
  | [] => []
  | c :: s' => if is_white_space c then trimStart s' else s
  end.

Definition trimEnd (s : jsstring) : jsstring := rev (trimStart (rev s)).

Definition trim (s : jsstring) : jsstring := trimEnd (trimStart s).

(** [toLowerCase] restricted to ASCII letters. *)
Definition ascii_toLowerCase (s : jsstring) : jsstring :=
  List.map (fun c => if (0x41 <=? c) && (c <=? 0x5A) then c + 0x20 else c) s.

(** ** Sets and arrays *)

(** A [Set] of strings is its list of elements in insertion order.
    [Set.prototype.add] appends a value that is not yet present. *)
Definition Set_add (s : list jsstring) (value : jsstring) : list jsstring :=
  if decide (value ∈ s) then s else s ++ [value].

(** [new Set(iterable)] adds the elements one after the other. *)
Definition new_Set (iterable : list jsstring) : list jsstring :=
  fold_left Set_add iterable [].

(** [Array.prototype.sort()] with no comparator orders strings by
    [IsLessThan] and is stable. *)
Definition Array_sort (a : list jsstring) : list jsstring :=
  merge_sort str_le a.

(** ** The cache *)

Module CacheManagement.

Record t := { set : list jsstring }.

Definition constructor : t := {| set := [] |}.

(** The private method [#sort]. *)
Definition sort (this : t) : t :=
  {| set := new_Set (Array_sort (set this)) |}.

Definition add (fetchedArray : list jsstring) (this : t) : t :=
  sort {| set := new_Set (set this ++ fetchedArray) |}.

Section Search.
Variable toLowerCase : jsstring -> jsstring.

(** The callback of [forEach]: pushes a matching value on [results]. *)
Definition search_visit (query : jsstring)
    (results : list jsstring) (value : jsstring) : list jsstring :=
  if startsWith (toLowerCase value) (toLowerCase query)
  then results ++ [value]
  else results.

(** Returns [results] together with the object after the call. *)
Definition search (query : jsstring) (this : t) : list jsstring * t :=
  (fold_left (search_visit query) (set this) [], this).
End Search.

End CacheManagement.

(** ** Values and effects of the coordinator *)

(** An error object; none of them has a [length] property. *)
Record Error := { name : jsstring; message : jsstring }.

(** [new Error(message)]. *)
Definition new_Error (msg : jsstring) : Error :=
  {| name := js "Error"; message := msg |}.

(** What [fetchData] hands back: the parsed response body, which the
    service contract makes an array of strings, or a caught error object. *)
Inductive value :=
  | Array (elements : list jsstring)
  | ErrorObject (error : Error).

(** The result of reading a property. *)
Inductive property :=
  | undefined
  | Number (n : N).

(** [v.length]. *)
Definition get_length (v : value) : property :=
  match v with
  | Array elements => Number (N.of_nat (length elements))
  | ErrorObject _ => undefined
  end.

(** [p > 0]: [undefined] converts to [NaN], and [NaN > 0] is [false]. *)
Definition greater_than_zero (p : property) : bool :=
  match p with
  | undefined => false
  | Number n => 0 <? n
  end.

(** The body of a response as [response.json()] delivers it, for a service
    that keeps its contract: the parsing fails, or the body is an array of
    strings.  Other bodies ([null], an object, an array with other elements)
    are not represented; no statement below is about them. *)
Inductive json_outcome :=
  | JsonRejects (reason : Error)
  | JsonData (data : list jsstring).

Record response := { ok : bool; json : json_outcome }.

(** How the call of [fetch] ends. *)
Inductive fetch_outcome :=
  | FetchRejects (reason : Error)
  | FetchResolves (r : response).

(** What a run of a handler does to its collaborators, in order. *)
Inductive event :=
  | ConsoleLog (msg : jsstring)
  | ConsoleWarn (msg : jsstring)
  | ConsoleError (label : jsstring) (error : Error)
  | ErrorMessageShown (msg : jsstring)
  | CacheSearched (query : jsstring)
  | CacheAdded (fetchedArray : value)
  | Fetched (url : jsstring) (searchString : jsstring)
  | FillOptionsCalled
  | OptionsReplaced (items : list jsstring).

(** The shared cache instance and the log of events. *)
Record world := { cache : CacheManagement.t; trace : list event }.

(** A statement completes normally or throws; in an [async] function a throw
    that is not caught rejects the promise of the call. *)
Inductive completion (A : Type) :=
  | Normal (a : A)
  | Throw (error : Error).
Arguments Normal {A} a.
Arguments Throw {A} error.

Definition M (A : Type) : Type := world -> completion A * world.

Definition ret {A} (a : A) : M A := fun w => (Normal a, w).

Definition bind {A B} (m : M A) (k : A -> M B) : M B :=
  fun w =>
    match m w with
    | (Normal a, w') => k a w'
    | (Throw error, w') => (Throw error, w')
    end.

Definition throw {A} (error : Error) : M A := fun w => (Throw error, w).

(** [try { body } catch (error) { handler }]. *)
Definition try_catch {A} (body : M A) (handler : Error -> M A) : M A :=
  fun w =>
    match body w with
    | (Normal a, w') => (Normal a, w')
    | (Throw error, w') => handler error w'
    end.

Definition emit (e : event) : M unit :=
  fun w => (Normal tt, {| cache := cache w; trace := trace w ++ [e] |}).

Definition when_ (b : bool) (m : M unit) : M unit := if b then m else ret tt.

Declare Scope js_scope.
Delimit Scope js_scope with js.
Notation "x <- m ;; k" := (bind m (fun x => k))
  (at level 20, m at level 99, k at level 200, only parsing) : js_scope.
Notation "m ;; k" := (bind m (fun _ => k))
  (at level 100, k at level 200, only parsing, right associativity) : js_scope.

Section Coordinator.
Local Open Scope js_scope.

Variable toLowerCase : jsstring -> jsstring.

(** The remote service: how [fetch] ends for a given search string. *)
Variable network : jsstring -> fetch_outcome.

Definition showErrorMessage (msg : jsstring) : M unit :=
  emit (ErrorMessageShown msg).

Definition URL : jsstring := js "https://jrrio.netlify.app/lang".

(** [await fetch(URL, { method: "POST", body: ... })]. *)
Definition fetch (url searchString : jsstring) : M response :=
  emit (Fetched url searchString) ;;
  match network searchString with
  | FetchRejects reason => throw reason
  | FetchResolves r => ret r
  end.

(** [await response.json()]. *)
Definition response_json (r : response) : M (list jsstring) :=
  match json r with
  | JsonRejects reason => throw reason
  | JsonData data => ret data
  end.

Definition fetchData (searchString : jsstring) : M value :=
  try_catch
    (response <- fetch URL searchString ;;
     when_ (negb (ok response))
       (throw (new_Error (js "fetch was blocked due to CORS policy"))) ;;
     data <- response_json response ;;
     ret (Array data))
    (fun error =>
       emit (ConsoleError (js "fetchData:") error) ;;
       showErrorMessage (js "fetchData: The server is down or unreachable") ;;
       ret (ErrorObject error)).

(** [cache.search(val)]. *)
Definition cache_search (query : jsstring) : M (list jsstring) :=
  fun w =>
    let (results, this) := CacheManagement.search toLowerCase query (cache w) in
    (Normal results,
     {| cache := this; trace := trace w ++ [CacheSearched query] |}).

(** [cache.add(names)]: spreading a value that is not iterable throws
    before the set is assigned. *)
Definition cache_add (fetchedArray : value) : M unit :=
  emit (CacheAdded fetchedArray) ;;
  match fetchedArray with
  | Array elements =>
      fun w =>
        (Normal tt,
         {| cache := CacheManagement.add elements (cache w); trace := trace w |})
  | ErrorObject _ =>
      throw {| name := js "TypeError"; message := js "fetchedArray is not iterable" |}
  end.

Definition fillOptions : M unit :=
  emit FillOptionsCalled ;;
  fun w =>
    let namesInCache := CacheManagement.set (cache w) in
    if (0 <? length namesInCache)%nat
    then emit (OptionsReplaced namesInCache) w
    else (Normal tt, w).

(** The [keyup] handler; [value] is [e.target.value]. *)
Definition search (value : jsstring) : M unit :=
  let val := trim value in
  match val with
  | [] => ret tt
  | _ :: _ =>
      names <- cache_search val ;;
      if (0 <? length names)%nat then
        emit (ConsoleLog (js "Already in cache")) ;;
        ret tt
      else
        try_catch
          (names <- fetchData val ;;
           when_ (greater_than_zero (get_length names))
             (emit (ConsoleWarn (js "Fetched from server")) ;;
              cache_add names ;;
              fillOptions))
          (fun error =>
             emit (ConsoleError (js "Search error:") error) ;;
             showErrorMessage
               (js "Server may be unavailable. Please try again later."))
  end.
End Coordinator.

(** Events that reach the remote service, the cache contents or the option
    list. *)
Definition is_fetch (e : event) : bool :=
  match e with Fetched _ _ => true | _ => false end.
Definition is_cache_search (e : event) : bool :=
  match e with CacheSearched _ => true | _ => false end.
Definition is_cache_add (e : event) : bool :=
  match e with CacheAdded _ => true | _ => false end.
Definition is_rebuild (e : event) : bool :=
  match e with FillOptionsCalled | OptionsReplaced _ => true | _ => false end.
Definition is_error_message (e : event) : bool :=
  match e with ErrorMessageShown _ => true | _ => false end.

(** The error thrown inside the [try] block of [fetchData], if any: the
    rejection of [fetch], the error made for a response that is not [ok], or
    the rejection of [response.json()]. *)
Definition fetch_failure (o : fetch_outcome) : option Error :=
  match o with
  | FetchRejects reason => Some reason
  | FetchResolves r =>
      if ok r then
        match json r with
        | JsonRejects reason => Some reason
        | JsonData _ => None
        end
      else Some (new_Error (js "fetch was blocked due to CORS policy"))
  end.

(** ** Debounce *)

(** The event loop as far as [debounce] uses it: a clock in milliseconds and
    the list of active timers.  A timer runs its callback when the clock
    reaches its due time; timers that are due run in the order of their due
    times, then of their creation.  Delays are whole numbers of
    milliseconds. *)
Module Debounce.
Section Debounce.
(** The argument the debounced function is called with. *)
Context {Event : Type}.

(** A timer made by [setTimeout (() => func(event)) wait]: the callback is
    known by the [event] it closes over. *)
Record timer := { handle : N; due : N; event_of : Event }.

Record loop := {
  now : N;
  next_handle : N;
  timers : list timer;
  (** the variable [timeout] of the closure, [None] for [undefined] *)
  timeout : option N;
  (** the executions of [func]: when, and with which argument *)
  calls : list (N * Event)
}.

(** The state in which [debounce func wait] returns its closure. *)
Definition debounce_init : loop :=
  {| now := 0; next_handle := 1; timers := []; timeout := None; calls := [] |}.

Definition has_handle (h : option N) (tm : timer) : bool :=
  match h with
  | None => false
  | Some n => handle tm =? n
  end.

(** [clearTimeout h]: nothing happens unless [h] names an active timer. *)
Definition clearTimeout (h : option N) (st : loop) : loop :=
  {| now := now st;
     next_handle := next_handle st;
     timers := List.filter (fun tm => negb (has_handle h tm)) (timers st);
     timeout := timeout st;
     calls := calls st |}.

(** The delay a timer gets for the [timeout] argument of [setTimeout], a
    whole number of milliseconds: the platform converts the argument to a
    32-bit signed integer (modulo 2^32), and a negative delay counts as 0. *)
Definition timer_delay (timeout : N) : N :=
  let n := timeout mod 0x100000000 in
  if n <? 0x80000000 then n else 0.

(** [setTimeout (() => func(event)) wait] returns the new handle. *)
Definition setTimeout (event : Event) (wait : N) (st : loop) : N * loop :=
  (next_handle st,
   {| now := now st;
      next_handle := next_handle st + 1;
      timers := timers st ++
                [{| handle := next_handle st; due := now st + timer_delay wait;
                    event_of := event |}];
      timeout := timeout st;
      calls := calls st |}).

(** The function returned by [debounce func wait], called with [event]. *)
Definition debounced (wait : N) (event : Event) (st : loop) : loop :=
  let st1 := clearTimeout (timeout st) st in
  let (h, st2) := setTimeout event wait st1 in
  {| now := now st2;
     next_handle := next_handle st2;
     timers := timers st2;
     timeout := Some h;
     calls := calls st2 |}.

(** [debounce(func, wait = 250)]. *)
Definition debounce (wait : option N) : Event -> loop -> loop :=
  debounced (default 250 wait).

(** The callback of a timer runs: the clock is at the due time, or later
    if it was already past it; the timer is gone and [func(event)] executes. *)
Definition fire (st : loop) (tm : timer) : loop :=
  {| now := N.max (now st) (due tm);
     next_handle := next_handle st;
     timers := List.filter (fun tm' => negb (handle tm' =? handle tm)) (timers st);
     timeout := timeout st;
     calls := calls st ++ [(N.max (now st) (due tm), event_of tm)] |}.

Definition timer_le (a b : timer) : Prop :=
  due a < due b \/ (due a = due b /\ handle a <= handle b).

#[global] Instance timer_le_dec a b : Decision (timer_le a b).
Proof. unfold timer_le. apply _. Defined.

(** The clock moves to [t]: the timers due by then run. *)
Definition advance (t : N) (st : loop) : loop :=
  let ready := merge_sort timer_le
                 (List.filter (fun tm => due tm <=? t) (timers st)) in
  let st' := fold_left fire ready st in
  {| now := N.max (now st') t;
     next_handle := next_handle st';
     timers := timers st';
     timeout := timeout st';
     calls := calls st' |}.

(** The debounced function [f] is called at time [t] with [event], for
    [call = (t, event)]. *)
Definition invoke (f : Event -> loop -> loop) (st : loop) (call : N * Event) : loop :=
  f (snd call) (advance (fst call) st).

(** A series of calls of [f], each given with its time. *)
Definition play (f : Event -> loop -> loop) (invocations : list (N * Event))
    (st : loop) : loop :=
  fold_left (invoke f) invocations st.

End Debounce.
Arguments timer : clear implicits.
Arguments loop : clear implicits.
End Debounce.

(** ** Sample collaborators *)

Definition sample_cache : CacheManagement.t :=
  CacheManagement.add [js "Java"; js "Go"; js "JavaScript"] CacheManagement.constructor.

Definition sample_world : world := {| cache := sample_cache; trace := [] |}.

(** A service that answers every request with status 403. *)
Definition network_forbidden (_ : jsstring) : fetch_outcome :=
  FetchResolves {| ok := false; json := JsonData [] |}.

(** A service that knows no name. *)
Definition network_no_match (_ : jsstring) : fetch_outcome :=
  FetchResolves {| ok := true; json := JsonData [] |}.

(** A service that knows two names. *)
Definition network_python (_ : jsstring) : fetch_outcome :=
  FetchResolves {| ok := true; json := JsonData [js "Python"; js "PHP"; js "Python"] |}.

(** ** Notions of the specification *)

(** A sequence of [add] calls on a cache, one per element of [calls]. *)
Definition add_all (calls : list (list jsstring)) (this : CacheManagement.t)
    : CacheManagement.t :=
  fold_left (fun c fetchedArray => CacheManagement.add fetchedArray c) calls this.

(** The invariant of the cache: no value twice, values in non-decreasing
    order. *)
Definition cache_ordered (c : CacheManagement.t) : Prop :=
  NoDup (CacheManagement.set c) /\ StronglySorted str_le (CacheManagement.set c).

Section SearchSpec.
Variable toLowerCase : jsstring -> jsstring.

(** [value], compared case-insensitively, starts with [query]. *)
Definition matches (query value : jsstring) : Prop :=
  toLowerCase query `prefix_of` toLowerCase value.

#[global] Instance matches_dec query value : Decision (matches query value).
Proof. unfold matches. apply _. Defined.

(** The entries that match, in the order of the cache. *)
Definition search_spec (query : jsstring) (entries : list jsstring) : list jsstring :=
  filter (matches query) entries.
End SearchSpec.


(** A code unit that [trim] removes at either end. *)
Definition white (c : code_unit) : Prop := is_white_space c = true.

(** The events a run has appended to the log: those of [w'] after the ones
    [w] already had. *)
Definition new_events (w w' : world) : list event :=
  drop (length (trace w)) (trace w').

(** What the cache gives for the trimmed input. *)
Definition local_hits (toLowerCase : jsstring -> jsstring)
    (value : jsstring) (w : world) : list jsstring :=
  fst (CacheManagement.search toLowerCase (trim value) (cache w)).

(** The items that the last replacement of the option list in a log wrote,
    none if the log has no replacement. *)
Definition displayed_options (log : list event) : list jsstring :=
  fold_left
    (fun items e => match e with OptionsReplaced items' => items' | _ => items end)
    log [].

(** The page when it is loaded: a new cache, nothing logged. *)
Definition initial_world : world :=
  {| cache := CacheManagement.constructor; trace := [] |}.

(** Runs of the handler one after the other, each given with the service as
    it answers at that time (with a failure or an array of strings) and with
    the value of the input. *)
Definition session (toLowerCase : jsstring -> jsstring)
    (inputs : list ((jsstring -> fetch_outcome) * jsstring)) (w : world) : world :=
  fold_left (fun w i => snd (search toLowerCase (fst i) (snd i) w)) inputs w.

(** ** The selected option *)

(** [found ? ... : ...]: [undefined] and the empty string are falsy. *)
Definition truthy (found : option jsstring) : bool :=
  match found with
  | Some (_ :: _) => true
  | _ => false
  end.

(** [getSelectedOption]: [input_value] is the value of the [search] input,
    [options] are the texts of the options of [lang_sel], in order.  [None]
    stands for [undefined]. *)
Definition getSelectedOption (input_value : jsstring) (options : list jsstring)
    : option jsstring :=
  let val := trim input_value in
  match val with
  | [] => None
  | _ :: _ => List.find (fun x => bool_decide (x = val)) options
  end.

(** What [enableBtnShowModal] writes to the page. *)
Record selection_view := {
  btnShowModal_disabled : bool;
  selectedOption_innerHTML : jsstring
}.

Definition enableBtnShowModal (input_value : jsstring) (options : list jsstring)
    : selection_view :=
  let found := getSelectedOption input_value options in
  {| btnShowModal_disabled :=
       match found with None => true | Some _ => false end;
     selectedOption_innerHTML :=
       if truthy found
       then js "Selected option: <b>" ++ default [] found ++ js "</b>"
       else js "No option selected" |}.

(** ** Calls of a debounced function in general *)



(** * Properties *)

(** ** The order of strings *)

Lemma IsLessThan_irrefl x : IsLessThan x x = false.
Proof.
  induction x as [|m x IH]; simpl; [done|].
  by rewrite N.ltb_irrefl.
Qed.

Lemma IsLessThan_asym x y : IsLessThan x y = true -> IsLessThan y x = false.
Proof.
  revert y. induction x as [|m x IH]; intros [|n y]; simpl; try done.
  destruct (N.ltb_spec m n), (N.ltb_spec n m); try done; try lia.
  apply IH.
Qed.

Lemma IsLessThan_trans x y z :
  IsLessThan x y = true -> IsLessThan y z = true -> IsLessThan x z = true.
Proof.
  revert y z. induction x as [|m x IH]; intros [|n y] [|k z]; simpl; try done.
  destruct (N.ltb_spec m n), (N.ltb_spec n m), (N.ltb_spec n k),
    (N.ltb_spec k n), (N.ltb_spec m k), (N.ltb_spec k m);
    try done; try lia.
  apply IH.
Qed.

Lemma IsLessThan_connex x y :
  IsLessThan x y = false -> IsLessThan y x = false -> x = y.
Proof.
  revert y. induction x as [|m x IH]; intros [|n y]; simpl; try done.
  destruct (N.ltb_spec m n), (N.ltb_spec n m); try done.
  intros. assert (m = n) as -> by lia. f_equal. by apply IH.
Qed.

(** [IsLessThan] is the lexicographic order on code units. *)
Lemma IsLessThan_lexicographic x y :
  IsLessThan x y = true <->
  (exists s, s <> [] /\ y = x ++ s) \/
  (exists p m n x' y', x = p ++ m :: x' /\ y = p ++ n :: y' /\ m < n).
Proof.
  revert y. induction x as [|m x IH]; intros [|n y]; simpl.
  - split; [done|]. intros [(s & ? & ?)|(p & ? & ? & ? & ? & ? & ? & ?)].
    + by destruct s.
    + by destruct p.
  - split; [|done]. intros _. left. by exists (n :: y).
  - split; [done|]. intros [(s & ? & ?)|(p & ? & ? & ? & ? & ? & ? & ?)].
    + done.
    + by destruct p.
  - destruct (N.ltb_spec m n) as [Hmn|Hmn].
    { split; [|done]. intros _. right. by exists [], m, n, x, y. }
    destruct (N.ltb_spec n m) as [Hnm|Hnm].
    { split; [done|]. intros [(s & ? & ?)|(p & m' & n' & x' & y' & Hx & Hy & ?)].
      - simplify_eq. lia.
      - destruct p; simpl in *; simplify_eq; lia. }
    assert (m = n) as -> by lia. rewrite IH. split.
    + intros [(s & ? & ->)|(p & m' & n' & x' & y' & -> & -> & ?)].
      * left. by exists s.
      * right. by exists (n :: p), m', n', x', y'.
    + intros [(s & ? & ?)|(p & m' & n' & x' & y' & Hx & Hy & ?)].
      * left. exists s. by simplify_eq.
      * destruct p; simpl in *; simplify_eq; [lia|]. right. by exists p, m', n', x', y'.
Qed.

#[global] Instance str_le_refl : Reflexive str_le.
Proof. intros x. apply IsLessThan_irrefl. Qed.

#[global] Instance str_le_trans : Transitive str_le.
Proof.
  intros x y z Hxy Hyz. unfold str_le in *.
  destruct (IsLessThan z x) eqn:Hzx; [|done].
  destruct (IsLessThan y z) eqn:Hzy.
  - rewrite (IsLessThan_trans y z x) in Hxy; done.
  - assert (y = z) as -> by by apply IsLessThan_connex.
    congruence.
Qed.

#[global] Instance str_le_antisym : AntiSymm (=) str_le.
Proof. intros x y Hxy Hyx. by apply IsLessThan_connex. Qed.

#[global] Instance str_le_total : Total str_le.
Proof.
  intros x y. unfold str_le.
  destruct (IsLessThan y x) eqn:Hyx; [|by left].
  right. by apply IsLessThan_asym.
Qed.

(** ** Sets and sorting *)

Lemma fold_Set_add_elem_of (l acc : list jsstring) x :
  x ∈ fold_left Set_add l acc <-> x ∈ acc \/ x ∈ l.
Proof.
  revert acc. induction l as [|v l IH]; intros acc; simpl.
  - rewrite elem_of_nil. tauto.
  - rewrite IH, elem_of_cons. unfold Set_add.
    destruct (decide (v ∈ acc)) as [Hv|Hv].
    + split; [tauto|]. intros [?|[->|?]]; tauto.
    + rewrite elem_of_app, list_elem_of_singleton. tauto.
Qed.

Lemma fold_Set_add_NoDup (l acc : list jsstring) :
  NoDup acc -> NoDup (fold_left Set_add l acc).
Proof.
  revert acc. induction l as [|v l IH]; intros acc Hacc; simpl; [done|].
  apply IH. unfold Set_add. destruct (decide (v ∈ acc)) as [Hv|Hv]; [done|].
  apply NoDup_app. split_and!; [done| |apply NoDup_singleton].
  intros y Hy ->%list_elem_of_singleton. done.
Qed.

Lemma fold_Set_add_id (l acc : list jsstring) :
  NoDup (acc ++ l) -> fold_left Set_add l acc = acc ++ l.
Proof.
  revert acc. induction l as [|v l IH]; intros acc Hnd; simpl.
  - by rewrite app_nil_r.
  - unfold Set_add. destruct (decide (v ∈ acc)) as [Hv|Hv].
    + apply NoDup_app in Hnd as (_ & Hnd & _).
      exfalso. apply (Hnd v Hv). by left.
    + rewrite IH; rewrite <- app_assoc; done.
Qed.

Lemma elem_of_new_Set l x : x ∈ new_Set l <-> x ∈ l.
Proof.
  unfold new_Set. rewrite fold_Set_add_elem_of, elem_of_nil. tauto.
Qed.

Lemma NoDup_new_Set l : NoDup (new_Set l).
Proof. apply fold_Set_add_NoDup, NoDup_nil_2. Qed.

Lemma new_Set_NoDup_id l : NoDup l -> new_Set l = l.
Proof. intros Hl. unfold new_Set. by rewrite fold_Set_add_id. Qed.

Lemma Array_sort_Permutation a : Array_sort a ≡ₚ a.
Proof. apply merge_sort_Permutation. Qed.

Lemma Array_sort_StronglySorted a : StronglySorted str_le (Array_sort a).
Proof. apply StronglySorted_merge_sort; apply _. Qed.

(** The result of the sort does not depend on the sorting algorithm: it is
    the only ordered arrangement of the elements. *)
Lemma Array_sort_unique a b :
  b ≡ₚ a -> StronglySorted str_le b -> Array_sort a = b.
Proof.
  intros Hperm Hb. apply (StronglySorted_unique str_le); [| done |].
  - apply Array_sort_StronglySorted.
  - by rewrite Array_sort_Permutation.
Qed.

(** Two duplicate-free ordered lists with the same elements are equal. *)
Lemma sorted_distinct_unique (l1 l2 : list jsstring) :
  NoDup l1 -> NoDup l2 ->
  StronglySorted str_le l1 -> StronglySorted str_le l2 ->
  (forall x, x ∈ l1 <-> x ∈ l2) -> l1 = l2.
Proof.
  intros Hn1 Hn2 Hs1 Hs2 Hel.
  apply (StronglySorted_unique str_le); [done..|].
  by apply NoDup_Permutation.
Qed.

(** ** The cache after [add] *)

Lemma add_set_eq a c :
  CacheManagement.set (CacheManagement.add a c)
  = Array_sort (new_Set (CacheManagement.set c ++ a)).
Proof.
  unfold CacheManagement.add, CacheManagement.sort. simpl.
  apply new_Set_NoDup_id.
  rewrite Array_sort_Permutation. apply NoDup_new_Set.
Qed.

Lemma add_elem_of a c x :
  x ∈ CacheManagement.set (CacheManagement.add a c)
  <-> x ∈ CacheManagement.set c \/ x ∈ a.
Proof.
  rewrite add_set_eq, Array_sort_Permutation, elem_of_new_Set, elem_of_app.
  tauto.
Qed.

Lemma add_NoDup a c : NoDup (CacheManagement.set (CacheManagement.add a c)).
Proof.
  rewrite add_set_eq, Array_sort_Permutation. apply NoDup_new_Set.
Qed.

Lemma add_StronglySorted a c :
  StronglySorted str_le (CacheManagement.set (CacheManagement.add a c)).
Proof. rewrite add_set_eq. apply Array_sort_StronglySorted. Qed.

Lemma cache_ordered_constructor : cache_ordered CacheManagement.constructor.
Proof. split; simpl; constructor. Qed.

Lemma cache_ordered_add a c : cache_ordered (CacheManagement.add a c).
Proof. split; [apply add_NoDup | apply add_StronglySorted]. Qed.

Lemma cache_ordered_eq c1 c2 :
  cache_ordered c1 -> cache_ordered c2 ->
  (forall x, x ∈ CacheManagement.set c1 <-> x ∈ CacheManagement.set c2) ->
  c1 = c2.
Proof.
  intros [] [] Hel. destruct c1 as [l1], c2 as [l2]. simpl in *.
  f_equal. by apply sorted_distinct_unique.
Qed.

Lemma add_all_elem_of calls c x :
  x ∈ CacheManagement.set (add_all calls c)
  <-> x ∈ CacheManagement.set c \/ x ∈ concat calls.
Proof.
  revert c. induction calls as [|a calls IH]; intros c; simpl.
  - rewrite elem_of_nil. tauto.
  - unfold add_all in *. simpl.
    rewrite IH, add_elem_of, elem_of_app. tauto.
Qed.

Lemma cache_ordered_add_all calls c :
  cache_ordered c -> cache_ordered (add_all calls c).
Proof.
  revert c. induction calls as [|a calls IH]; intros c Hc; simpl; [done|].
  apply IH, cache_ordered_add.
Qed.

(** C1: after any sequence of [add] calls on a new cache, the entries are
    exactly the distinct strings that were passed in, each once, in
    non-decreasing code-unit order; two sequences of calls that pass the same
    strings, however often and however grouped, end in the same cache. *)
Theorem add_all_distinct_sorted (calls : list (list jsstring)) :
  let entries :=
    CacheManagement.set (add_all calls CacheManagement.constructor) in
  NoDup entries
  /\ StronglySorted str_le entries
  /\ (forall x, x ∈ entries <-> x ∈ concat calls)
  /\ (forall calls' : list (list jsstring),
        (forall x, x ∈ concat calls' <-> x ∈ concat calls) ->
        add_all calls' CacheManagement.constructor
        = add_all calls CacheManagement.constructor).
Proof.
  pose proof (cache_ordered_add_all calls _ cache_ordered_constructor) as Hord.
  assert (forall cs x,
    x ∈ CacheManagement.set (add_all cs CacheManagement.constructor)
    <-> x ∈ concat cs) as Hel.
  { intros cs x. rewrite add_all_elem_of. simpl. rewrite elem_of_nil. tauto. }
  simpl. split_and!; [apply Hord | apply Hord | apply Hel |].
  intros calls' Hsame. apply cache_ordered_eq; [|done|].
  - apply cache_ordered_add_all, cache_ordered_constructor.
  - intros x. by rewrite !Hel.
Qed.

Lemma add_all_distinct_sorted_witness :
  add_all [[js "Go"; js "C"; js "Go"]; [js "C"]] CacheManagement.constructor
  = add_all [[js "C"]; []; [js "Go"]] CacheManagement.constructor.
Proof.
  apply (add_all_distinct_sorted [[js "C"]; []; [js "Go"]]).
  intros x. vm_compute concat. rewrite !elem_of_cons, !elem_of_nil. tauto.
Defined.

(** C10: the cache after [add] calls depends only on the set of the strings
    passed, not on their order, their grouping into calls or their number of
    occurrences.  Two [add] calls give the same cache in either order, the
    cache of one [add] of the concatenation, with the old entries and the
    strings of both arrays as its entries; an array with the same strings as
    another gives the same cache; and two sequences of calls that pass the
    same strings end in the same cache, from any cache when neither sequence
    is empty, and from an ordered cache in every case. *)
Theorem add_commutes_and_merges (a b : list jsstring) (c : CacheManagement.t) :
  CacheManagement.add b (CacheManagement.add a c)
  = CacheManagement.add a (CacheManagement.add b c)
  /\ CacheManagement.add b (CacheManagement.add a c)
     = CacheManagement.add (a ++ b) c
  /\ (forall x, x ∈ CacheManagement.set (CacheManagement.add b (CacheManagement.add a c))
                <-> x ∈ CacheManagement.set c \/ x ∈ a \/ x ∈ b)
  /\ (forall a' : list jsstring,
        (forall x, x ∈ a' <-> x ∈ a) ->
        CacheManagement.add a' c = CacheManagement.add a c)
  /\ (forall calls calls' : list (list jsstring),
        calls <> [] -> calls' <> [] ->
        (forall x, x ∈ concat calls <-> x ∈ concat calls') ->
        add_all calls c = add_all calls' c)
  /\ (forall calls calls' : list (list jsstring),
        cache_ordered c ->
        (forall x, x ∈ concat calls <-> x ∈ concat calls') ->
        add_all calls c = add_all calls' c).
Proof.
  assert (forall calls : list (list jsstring),
            calls <> [] -> cache_ordered (add_all calls c)) as Hord.
  { intros [|a0 calls] Hne; [done|].
    apply (cache_ordered_add_all calls), cache_ordered_add. }
  split_and!.
  - apply cache_ordered_eq; try apply cache_ordered_add.
    intros x. rewrite !add_elem_of. tauto.
  - apply cache_ordered_eq; try apply cache_ordered_add.
    intros x. rewrite !add_elem_of, elem_of_app. tauto.
  - intros x. rewrite !add_elem_of. tauto.
  - intros a' Hsame. apply cache_ordered_eq; try apply cache_ordered_add.
    intros x. rewrite !add_elem_of, Hsame. tauto.
  - intros calls calls' Hne Hne' Hsame.
    apply cache_ordered_eq; [by apply Hord | by apply Hord |].
    intros x. rewrite !add_all_elem_of, Hsame. tauto.
  - intros calls calls' Hc Hsame.
    apply cache_ordered_eq; [by apply cache_ordered_add_all..|].
    intros x. rewrite !add_all_elem_of, Hsame. tauto.
Qed.

Lemma add_commutes_and_merges_witness :
  CacheManagement.add [js "Go"; js "Rust"; js "Go"; js "Go"] sample_cache
  = CacheManagement.add [js "Rust"; js "Go"] sample_cache
  /\ add_all [[js "Rust"]; [js "Go"; js "Rust"]] sample_cache
     = add_all [[js "Go"; js "Go"; js "Rust"]] sample_cache.
Proof.
  pose proof (add_commutes_and_merges [js "Rust"; js "Go"] [] sample_cache)
    as (_ & _ & _ & Hset & Hcalls & _).
  split.
  - apply Hset. intros x. simpl. rewrite !elem_of_cons, elem_of_nil. tauto.
  - apply Hcalls; [discriminate | discriminate |].
    intros x. simpl. rewrite !elem_of_cons, elem_of_nil. tauto.
Defined.

Example sort_example :
  CacheManagement.set
    (CacheManagement.add [js "Python"; js "C"; js "Go"] CacheManagement.constructor)
  = [js "C"; js "Go"; js "Python"].
Proof. vm_compute. reflexivity. Qed.

Example add_twice_example :
  CacheManagement.set
    (add_all
       [[js "b"; js "a"; js "b"]; [js "a"; js "B"]; []] CacheManagement.constructor)
  = [js "B"; js "a"; js "b"].
Proof. vm_compute. reflexivity. Qed.

(** ** Searching the cache *)

Lemma startsWith_prefix_of s searchString :
  startsWith s searchString = true <-> searchString `prefix_of` s.
Proof.
  revert s. induction searchString as [|n q IH]; intros [|m s]; simpl.
  - split; [intros _; apply prefix_nil | done].
  - split; [intros _; apply prefix_nil | done].
  - split; [done|]. intros [k Hk]. done.
  - destruct (decide (m = n)) as [->|Hne].
    + rewrite IH. split; [apply prefix_cons | apply prefix_cons_inv_2].
    + split; [done|]. intros ?%prefix_cons_inv_1. done.
Qed.

Lemma StronglySorted_filter {A} (R : relation A) (P : A -> Prop)
    `{forall x, Decision (P x)} (l : list A) :
  StronglySorted R l -> StronglySorted R (filter P l).
Proof.
  induction 1 as [|x l Hl IH Hx]; [constructor|].
  rewrite filter_cons. destruct (decide (P x)); [|done].
  constructor; [done|].
  rewrite Forall_forall in Hx |- *.
  intros y [_ ?]%list_elem_of_filter. by apply Hx.
Qed.

Section SearchProperties.
Variable toLowerCase : jsstring -> jsstring.

Lemma search_visit_fold query entries results :
  fold_left (CacheManagement.search_visit toLowerCase query) entries results
  = results ++ search_spec toLowerCase query entries.
Proof.
  revert results. induction entries as [|v entries IH]; intros results; simpl.
  - by rewrite app_nil_r.
  - rewrite IH. unfold CacheManagement.search_visit, search_spec.
    rewrite filter_cons.
    destruct (startsWith (toLowerCase v) (toLowerCase query)) eqn:Hsw.
    + apply startsWith_prefix_of in Hsw.
      rewrite decide_True by done. by rewrite <- app_assoc.
    + rewrite decide_False; [done|].
      intros Hm%startsWith_prefix_of. congruence.
Qed.

(** C2: [search] returns the entries that match the query as a
    case-insensitive prefix, all of them and no others, in the order of the
    cache (so in sorted order when the cache is); the result is empty when
    no entry matches; the cache is the same after the call.  This holds for
    every query, the non-empty ones in particular. *)
Theorem search_returns_matches (query : jsstring) (this : CacheManagement.t) :
  let results := fst (CacheManagement.search toLowerCase query this) in
  let this' := snd (CacheManagement.search toLowerCase query this) in
  results = search_spec toLowerCase query (CacheManagement.set this)
  /\ (forall v, v ∈ results
                <-> v ∈ CacheManagement.set this /\ matches toLowerCase query v)
  /\ results `sublist_of` CacheManagement.set this
  /\ (StronglySorted str_le (CacheManagement.set this) ->
      StronglySorted str_le results)
  /\ ((forall v, v ∈ CacheManagement.set this -> ~ matches toLowerCase query v) ->
      results = [])
  /\ this' = this.
Proof.
  simpl. rewrite search_visit_fold. simpl. unfold search_spec.
  split_and!; [done| | | | |done].
  - intros v. rewrite list_elem_of_filter. tauto.
  - apply sublist_filter.
  - apply StronglySorted_filter.
  - intros Hnone. induction (CacheManagement.set this) as [|v l IH]; [done|].
    rewrite filter_cons, decide_False by (apply Hnone; left).
    apply IH. intros u Hu. apply Hnone. by right.
Qed.

(** C9: with the empty query, [search] returns every entry of the cache,
    in the order of the cache. *)
Theorem search_empty_query_returns_all (this : CacheManagement.t) :
  toLowerCase [] = [] ->
  fst (CacheManagement.search toLowerCase [] this) = CacheManagement.set this.
Proof.
  intros Hlower. simpl. rewrite search_visit_fold. simpl. unfold search_spec.
  induction (CacheManagement.set this) as [|v l IH]; [done|].
  rewrite filter_cons, decide_True; [by rewrite IH|].
  unfold matches. rewrite Hlower. apply prefix_nil.
Qed.
End SearchProperties.

Lemma search_returns_matches_witness :
  fst (CacheManagement.search ascii_toLowerCase (js "x")
         {| CacheManagement.set := [js "Go"; js "Java"; js "JavaScript"] |})
  = [].
Proof.
  apply (search_returns_matches ascii_toLowerCase (js "x")
           {| CacheManagement.set := [js "Go"; js "Java"; js "JavaScript"] |}).
  intros v Hv. unfold matches. rewrite <- startsWith_prefix_of.
  simpl in Hv.
  rewrite !elem_of_cons, elem_of_nil in Hv.
  destruct Hv as [->|[->|[->|[]]]]; vm_compute; discriminate.
Defined.

Lemma search_empty_query_returns_all_witness :
  fst (CacheManagement.search ascii_toLowerCase []
         {| CacheManagement.set := [js "Go"; js "Java"] |})
  = [js "Go"; js "Java"].
Proof.
  apply (search_empty_query_returns_all ascii_toLowerCase
           {| CacheManagement.set := [js "Go"; js "Java"] |}).
  reflexivity.
Defined.

Example search_example :
  let c := CacheManagement.add [js "JavaScript"; js "Go"; js "Java"; js "Go"]
             CacheManagement.constructor in
  fst (CacheManagement.search ascii_toLowerCase (js "ja") c) = [js "Java"; js "JavaScript"]
  /\ fst (CacheManagement.search ascii_toLowerCase (js "x") c) = [].
Proof. vm_compute. split; reflexivity. Qed.

(** ** The coordinator *)

Section CoordinatorProperties.
Variable toLowerCase : jsstring -> jsstring.
Variable network : jsstring -> fetch_outcome.

Ltac run_handler :=
  unfold search, fetchData, fetch, response_json, cache_search, cache_add,
    fillOptions, showErrorMessage, try_catch, when_, bind, emit, throw, ret;
  simpl.

Lemma world_eta w : {| cache := cache w; trace := trace w ++ [] |} = w.
Proof. destruct w. simpl. by rewrite app_nil_r. Qed.

(** A failed fetch: [fetchData] logs, shows its message and returns the
    error it caught. *)
Lemma fetchData_failure searchString w error :
  fetch_failure (network searchString) = Some error ->
  fetchData network searchString w
  = (Normal (ErrorObject error),
     {| cache := cache w;
        trace := trace w ++
          [Fetched URL searchString;
           ConsoleError (js "fetchData:") error;
           ErrorMessageShown (js "fetchData: The server is down or unreachable")] |}).
Proof.
  intros Hfail. run_handler.
  destruct (network searchString) as [reason|[[] [reason|data]]];
    simpl in *; simplify_eq; by rewrite <- !app_assoc.
Qed.

(** A successful fetch: [fetchData] returns the parsed body. *)
Lemma fetchData_success searchString w data :
  network searchString = FetchResolves {| ok := true; json := JsonData data |} ->
  fetchData network searchString w
  = (Normal (Array data),
     {| cache := cache w; trace := trace w ++ [Fetched URL searchString] |}).
Proof. intros Hnet. run_handler. by rewrite Hnet. Qed.

(** The handler up to the remote call, when the cache has no match. *)
Lemma search_miss value w :
  trim value <> [] ->
  fst (CacheManagement.search toLowerCase (trim value) (cache w)) = [] ->
  search toLowerCase network value w
  = try_catch
      (bind (fetchData network (trim value)) (fun names =>
         when_ (greater_than_zero (get_length names))
           (bind (emit (ConsoleWarn (js "Fetched from server"))) (fun _ =>
            bind (cache_add names) (fun _ => fillOptions)))))
      (fun error =>
         bind (emit (ConsoleError (js "Search error:") error)) (fun _ =>
           showErrorMessage
             (js "Server may be unavailable. Please try again later.")))
      {| cache := cache w; trace := trace w ++ [CacheSearched (trim value)] |}.
Proof.
  intros Hval Hmiss. unfold search.
  destruct (trim value) as [|c val] eqn:Htrim; [done|].
  unfold bind at 1. unfold cache_search. simpl in Hmiss |- *.
  by rewrite Hmiss.
Qed.

(** C7: an input that trims to the empty string leaves the world as it
    is: no event at all, so no cache search, no fetch, no message. *)
Theorem empty_query_is_noop (value : jsstring) (w : world) :
  trim value = [] ->
  search toLowerCase network value w = (Normal tt, w).
Proof. intros Hval. unfold search. by rewrite Hval. Qed.

(** C3: when the cache has a match for the trimmed input, the handler
    completes without a fetch, without adding to the cache and without a
    rebuild of the options; the cache is unchanged. *)
Theorem cache_hit_short_circuits (value : jsstring) (w : world) :
  fst (CacheManagement.search toLowerCase (trim value) (cache w)) <> [] ->
  exists events,
    search toLowerCase network value w
    = (Normal tt, {| cache := cache w; trace := trace w ++ events |})
    /\ existsb is_fetch events = false
    /\ existsb is_cache_add events = false
    /\ existsb is_rebuild events = false.
Proof.
  intros Hhit. unfold search.
  destruct (trim value) as [|c val] eqn:Htrim.
  - exists []. by rewrite world_eta.
  - exists [CacheSearched (c :: val); ConsoleLog (js "Already in cache")].
    split; [|done]. run_handler. simpl in Hhit.
    destruct (fold_left _ _ _) as [|r results]; [done|].
    simpl. by rewrite <- app_assoc.
Qed.

(** C5: when the cache has no match and the fetch fails (rejection,
    response that is not [ok], or rejected parsing), the handler completes
    normally, the cache is unchanged, the one message shown is the fixed
    text of [fetchData], and nothing is added or rebuilt. *)
Theorem fetch_failure_is_isolated (value : jsstring) (w : world) (error : Error) :
  trim value <> [] ->
  fst (CacheManagement.search toLowerCase (trim value) (cache w)) = [] ->
  fetch_failure (network (trim value)) = Some error ->
  let events :=
    [CacheSearched (trim value);
     Fetched URL (trim value);
     ConsoleError (js "fetchData:") error;
     ErrorMessageShown (js "fetchData: The server is down or unreachable")] in
  search toLowerCase network value w
  = (Normal tt, {| cache := cache w; trace := trace w ++ events |})
  /\ List.filter is_error_message events
     = [ErrorMessageShown (js "fetchData: The server is down or unreachable")]
  /\ existsb is_cache_add events = false
  /\ existsb is_rebuild events = false.
Proof.
  intros Hval Hmiss Hfail events. split; [|done].
  rewrite search_miss by done.
  unfold try_catch, bind at 1.
  rewrite (fetchData_failure _ _ error) by done.
  simpl. unfold ret. simpl. by rewrite <- app_assoc.
Qed.

(** C6: when the cache has no match and the fetch delivers an empty array,
    the handler completes after the fetch: the cache is unchanged, [add] is
    not called and no rebuild is signalled. *)
Theorem empty_result_is_noop (value : jsstring) (w : world) :
  trim value <> [] ->
  fst (CacheManagement.search toLowerCase (trim value) (cache w)) = [] ->
  network (trim value) = FetchResolves {| ok := true; json := JsonData [] |} ->
  let events := [CacheSearched (trim value); Fetched URL (trim value)] in
  search toLowerCase network value w
  = (Normal tt, {| cache := cache w; trace := trace w ++ events |})
  /\ existsb is_cache_add events = false
  /\ existsb is_rebuild events = false.
Proof.
  intros Hval Hmiss Hnet events. split; [|done].
  rewrite search_miss by done.
  unfold try_catch, bind at 1.
  rewrite (fetchData_success _ _ []) by done.
  simpl. unfold ret. simpl. by rewrite <- app_assoc.
Qed.

(** C8: on a failed fetch [fetchData] completes normally and its result is
    the caught error object; reading [length] of it gives [undefined], the
    test [> 0] is false, and the handler, which reaches the fetch when the
    cache has no match, completes normally with no [add] and no rebuild. *)
Theorem error_object_fails_length_test
    (value : jsstring) (w : world) (error : Error) :
  trim value <> [] ->
  fst (CacheManagement.search toLowerCase (trim value) (cache w)) = [] ->
  fetch_failure (network (trim value)) = Some error ->
  (forall w0, fst (fetchData network (trim value) w0) = Normal (ErrorObject error))
  /\ get_length (ErrorObject error) = undefined
  /\ greater_than_zero (get_length (ErrorObject error)) = false
  /\ fst (search toLowerCase network value w) = Normal tt
  /\ cache (snd (search toLowerCase network value w)) = cache w
  /\ (forall e, e ∈ trace (snd (search toLowerCase network value w)) ->
        e ∈ trace w \/ (is_cache_add e = false /\ is_rebuild e = false)).
Proof.
  intros Hval Hmiss Hfail. split_and!; try done.
  - intros w0. by rewrite (fetchData_failure _ _ error).
  - rewrite search_miss by done. unfold try_catch, bind at 1.
    by rewrite (fetchData_failure _ _ error).
  - rewrite search_miss by done. unfold try_catch, bind at 1.
    by rewrite (fetchData_failure _ _ error).
  - rewrite search_miss by done. unfold try_catch, bind at 1.
    rewrite (fetchData_failure _ _ error) by done. simpl.
    intros e. rewrite !elem_of_app, !elem_of_cons, elem_of_nil.
    intros [[?|[->|[]]]|[->|[->|[->|[]]]]]; auto.
Qed.
End CoordinatorProperties.

Lemma empty_query_is_noop_witness :
  search ascii_toLowerCase network_python (js "  ") sample_world
  = (Normal tt, sample_world).
Proof.
  apply (empty_query_is_noop ascii_toLowerCase network_python (js "  ") sample_world).
  reflexivity.
Defined.

Lemma cache_hit_short_circuits_witness :
  exists events,
    search ascii_toLowerCase network_python (js " ja") sample_world
    = (Normal tt, {| cache := cache sample_world;
                     trace := trace sample_world ++ events |})
    /\ existsb is_fetch events = false
    /\ existsb is_cache_add events = false
    /\ existsb is_rebuild events = false.
Proof.
  apply (cache_hit_short_circuits ascii_toLowerCase network_python (js " ja") sample_world).
  vm_compute. discriminate.
Defined.

Lemma fetch_failure_is_isolated_witness :
  search ascii_toLowerCase network_forbidden (js "py ") sample_world
  = (Normal tt,
     {| cache := sample_cache;
        trace :=
          [CacheSearched (js "py");
           Fetched URL (js "py");
           ConsoleError (js "fetchData:")
             (new_Error (js "fetch was blocked due to CORS policy"));
           ErrorMessageShown (js "fetchData: The server is down or unreachable")] |}).
Proof.
  refine (proj1 (fetch_failure_is_isolated ascii_toLowerCase network_forbidden
                   (js "py ") sample_world
                   (new_Error (js "fetch was blocked due to CORS policy")) _ _ _)).
  - vm_compute. discriminate.
  - reflexivity.
  - reflexivity.
Defined.

Lemma empty_result_is_noop_witness :
  search ascii_toLowerCase network_no_match (js "py ") sample_world
  = (Normal tt,
     {| cache := sample_cache;
        trace := [CacheSearched (js "py"); Fetched URL (js "py")] |}).
Proof.
  refine (proj1 (empty_result_is_noop ascii_toLowerCase network_no_match
                   (js "py ") sample_world _ _ _)).
  - vm_compute. discriminate.
  - reflexivity.
  - reflexivity.
Defined.

Lemma error_object_fails_length_test_witness :
  fst (search ascii_toLowerCase network_forbidden (js "py ") sample_world) = Normal tt
  /\ cache (snd (search ascii_toLowerCase network_forbidden (js "py ") sample_world))
     = sample_cache.
Proof.
  pose proof (error_object_fails_length_test ascii_toLowerCase network_forbidden
                (js "py ") sample_world
                (new_Error (js "fetch was blocked due to CORS policy"))) as H.
  destruct H as (_ & _ & _ & Hresult & Hcache & _).
  - vm_compute. discriminate.
  - reflexivity.
  - reflexivity.
  - split; [exact Hresult | exact Hcache].
Defined.

Example fetch_and_merge_example :
  search ascii_toLowerCase network_python (js "p") sample_world
  = (Normal tt,
     {| cache :=
          {| CacheManagement.set :=
               [js "Go"; js "Java"; js "JavaScript"; js "PHP"; js "Python"] |};
        trace :=
          [CacheSearched (js "p");
           Fetched URL (js "p");
           ConsoleWarn (js "Fetched from server");
           CacheAdded (Array [js "Python"; js "PHP"; js "Python"]);
           FillOptionsCalled;
           OptionsReplaced
             [js "Go"; js "Java"; js "JavaScript"; js "PHP"; js "Python"]] |}).
Proof. vm_compute. reflexivity. Qed.

(** ** Debounce *)



Section DebounceProperties.
Context {Event : Type}.
Implicit Types (st : Debounce.loop Event) (e : Event) (t wait : N).








End DebounceProperties.



Example debounce_example :
  let st := Debounce.play (Debounce.debounce (Some 250))
              [(0, js "J"); (50, js "Ja"); (100, js "Jav")] Debounce.debounce_init in
  Debounce.calls (Debounce.advance 349 st) = []
  /\ Debounce.calls (Debounce.advance 350 st) = [(350, js "Jav")]
  /\ Debounce.calls (Debounce.advance 5000 st) = [(350, js "Jav")].
Proof. vm_compute. repeat split. Qed.

(** Calls that are [wait] or more apart are not collapsed. *)
Example debounce_separate_calls_example :
  Debounce.calls
    (Debounce.advance 5000
       (Debounce.play (Debounce.debounce (Some 250))
          [(0, js "J"); (250, js "Ja")] Debounce.debounce_init))
  = [(250, js "J"); (500, js "Ja")].
Proof. vm_compute. reflexivity. Qed.


(** * Further properties of the code *)

(** ** The cache *)

Lemma fold_Set_add_length (l acc : list jsstring) :
  (length acc <= length (fold_left Set_add l acc) <= length acc + length l)%nat.
Proof.
  revert acc. induction l as [|v l IH]; intros acc; simpl; [lia|].
  specialize (IH (Set_add acc v)). unfold Set_add in *.
  destruct (decide (v ∈ acc)); [lia|].
  rewrite length_app in IH. simpl in IH. lia.
Qed.

Lemma add_length a c :
  length (CacheManagement.set (CacheManagement.add a c))
  = length (new_Set (CacheManagement.set c ++ a)).
Proof. by rewrite add_set_eq, Array_sort_Permutation. Qed.

(** An [add] loses no entry, and on a cache without duplicates it adds at
    most as many entries as it is given. *)
Theorem add_grows_within_bounds (a : list jsstring) (c : CacheManagement.t) :
  NoDup (CacheManagement.set c) ->
  (forall x, x ∈ CacheManagement.set c ->
             x ∈ CacheManagement.set (CacheManagement.add a c))
  /\ (length (CacheManagement.set c)
      <= length (CacheManagement.set (CacheManagement.add a c))
      <= length (CacheManagement.set c) + length a)%nat.
Proof.
  intros Hc. split.
  - intros x Hx. apply add_elem_of. by left.
  - rewrite add_length. unfold new_Set. rewrite fold_left_app.
    rewrite (fold_Set_add_id (CacheManagement.set c) []) by done.
    apply fold_Set_add_length.
Qed.

Lemma add_grows_within_bounds_witness :
  (3 <= length (CacheManagement.set
                  (CacheManagement.add [js "Go"; js "Rust"] sample_cache)) <= 3 + 2)%nat.
Proof.
  refine (proj2 (add_grows_within_bounds [js "Go"; js "Rust"] sample_cache _)).
  apply add_NoDup.
Defined.

(** An [add] of strings that an ordered cache already holds changes
    nothing; the empty array is the first case of it. *)
Theorem add_present_is_identity (a : list jsstring) (c : CacheManagement.t) :
  cache_ordered c ->
  (forall x, x ∈ a -> x ∈ CacheManagement.set c) ->
  CacheManagement.add a c = c.
Proof.
  intros Hc Ha. apply cache_ordered_eq; [apply cache_ordered_add | done |].
  intros x. rewrite add_elem_of. split; [intros [?|?]; auto | auto].
Qed.

Lemma add_present_is_identity_witness :
  CacheManagement.add [js "Go"; js "Java"; js "Go"] sample_cache = sample_cache.
Proof.
  apply (add_present_is_identity [js "Go"; js "Java"; js "Go"] sample_cache).
  - apply cache_ordered_add.
  - intros x Hx. simpl in Hx. rewrite !elem_of_cons, elem_of_nil in Hx.
    vm_compute CacheManagement.set. rewrite !elem_of_cons.
    destruct Hx as [->|[->|[->|[]]]]; auto.
Defined.

(** The same [add] a second time changes nothing, whatever the cache was. *)
Theorem add_idempotent (a : list jsstring) (c : CacheManagement.t) :
  CacheManagement.add a (CacheManagement.add a c) = CacheManagement.add a c.
Proof.
  apply cache_ordered_eq; try apply cache_ordered_add.
  intros x. rewrite !add_elem_of. tauto.
Qed.

(** One or more [add] calls in a row leave the cache that one [add] of all
    their arguments together leaves. *)
Theorem add_all_is_one_add (calls : list (list jsstring)) (c : CacheManagement.t) :
  calls <> [] ->
  add_all calls c = CacheManagement.add (concat calls) c.
Proof.
  intros Hcalls. destruct calls as [|a calls]; [done|].
  apply cache_ordered_eq.
  - apply (cache_ordered_add_all calls), cache_ordered_add.
  - apply cache_ordered_add.
  - intros x. rewrite add_all_elem_of, add_elem_of. tauto.
Qed.

Lemma add_all_is_one_add_witness :
  add_all [[js "Go"]; [js "C"; js "Go"]] sample_cache
  = CacheManagement.add [js "Go"; js "C"; js "Go"] sample_cache.
Proof.
  apply (add_all_is_one_add [[js "Go"]; [js "C"; js "Go"]] sample_cache).
  discriminate.
Defined.

(** A search right after an [add]: the result has no duplicates, is in
    order, holds exactly the matching strings among the old entries and the
    added ones, and every added string is found by a search for itself. *)
Theorem search_after_add
    (toLowerCase : jsstring -> jsstring) (query : jsstring)
    (a : list jsstring) (c : CacheManagement.t) :
  let found q :=
    fst (CacheManagement.search toLowerCase q (CacheManagement.add a c)) in
  NoDup (found query)
  /\ StronglySorted str_le (found query)
  /\ (forall v, v ∈ found query
                <-> (v ∈ CacheManagement.set c \/ v ∈ a)
                    /\ matches toLowerCase query v)
  /\ (forall v, v ∈ a -> v ∈ found v).
Proof.
  assert (forall q,
    fst (CacheManagement.search toLowerCase q (CacheManagement.add a c))
    = search_spec toLowerCase q (CacheManagement.set (CacheManagement.add a c)))
    as Heq.
  { intros q. unfold CacheManagement.search. cbn [fst].
    by rewrite search_visit_fold. }
  assert (forall q v,
    v ∈ fst (CacheManagement.search toLowerCase q (CacheManagement.add a c))
    <-> (v ∈ CacheManagement.set c \/ v ∈ a) /\ matches toLowerCase q v) as Hel.
  { intros q v. rewrite Heq. unfold search_spec.
    rewrite list_elem_of_filter, add_elem_of. tauto. }
  cbv beta zeta. split_and!.
  - rewrite Heq. apply NoDup_filter, add_NoDup.
  - rewrite Heq. apply StronglySorted_filter, add_StronglySorted.
  - apply Hel.
  - intros v Hv. apply Hel. split; [by right|]. unfold matches. done.
Qed.

Lemma search_after_add_witness :
  js "Go" ∈ fst (CacheManagement.search ascii_toLowerCase (js "Go")
                   (CacheManagement.add [js "Go"] CacheManagement.constructor)).
Proof.
  apply (search_after_add ascii_toLowerCase (js "Go") [js "Go"]
           CacheManagement.constructor).
  apply list_elem_of_singleton. reflexivity.
Defined.

(** ** Trimming *)

Lemma trimStart_split s :
  exists pre, s = pre ++ trimStart s /\ Forall white pre.
Proof.
  induction s as [|c s (pre & Hs & Hpre)]; simpl.
  - by exists [].
  - destruct (is_white_space c) eqn:Hc.
    + exists (c :: pre). split; [by rewrite Hs at 1|]. by constructor.
    + by exists [].
Qed.

Lemma trimStart_head s c r : trimStart s = c :: r -> is_white_space c = false.
Proof.
  induction s as [|d s IH]; simpl; [done|].
  destruct (is_white_space d) eqn:Hd; [done|]. by intros [= <- _].
Qed.

Lemma trimStart_fixed c r : is_white_space c = false -> trimStart (c :: r) = c :: r.
Proof. intros Hc. simpl. by rewrite Hc. Qed.

Lemma trimStart_white s : Forall white s -> trimStart s = [].
Proof.
  induction 1 as [|c s Hc _ IH]; simpl; [done|].
  unfold white in Hc. by rewrite Hc.
Qed.

Lemma trimEnd_split s :
  exists post, s = trimEnd s ++ post /\ Forall white post.
Proof.
  destruct (trimStart_split (rev s)) as (pre & Hs & Hpre).
  exists (rev pre). split.
  - unfold trimEnd. rewrite <- rev_app_distr, <- Hs. by rewrite rev_involutive.
  - apply Forall_forall. intros c Hc%list_elem_of_In%in_rev%list_elem_of_In.
    by apply (proj1 (Forall_forall _ _) Hpre).
Qed.

Lemma trimEnd_last s r c : trimEnd s = r ++ [c] -> is_white_space c = false.
Proof.
  unfold trimEnd. intros Hs. apply (trimStart_head (rev s) c (rev r)).
  rewrite <- (rev_involutive (trimStart (rev s))), Hs, rev_app_distr. done.
Qed.

Lemma trimEnd_fixed r c : is_white_space c = false -> trimEnd (r ++ [c]) = r ++ [c].
Proof.
  intros Hc. unfold trimEnd. rewrite rev_app_distr. simpl. rewrite Hc.
  simpl. by rewrite rev_involutive.
Qed.

Lemma trim_empty_iff s : trim s = [] <-> Forall white s.
Proof.
  split.
  - intros Ht. destruct (trimStart_split s) as (pre & Hs & Hpre).
    destruct (trimEnd_split (trimStart s)) as (post & Hs' & Hpost).
    fold (trim s) in Hs'. rewrite Ht in Hs'. simpl in Hs'.
    rewrite Hs, Hs'. by apply Forall_app.
  - intros Hs. unfold trim. by rewrite trimStart_white.
Qed.

(** What [trim] gives: the input without a run of white space at the start
    and one at the end, every code unit in between kept; the result neither
    starts nor ends with white space, and trimming it again changes nothing. *)
Theorem trim_strips_both_ends (s : jsstring) :
  (exists pre post,
      s = pre ++ trim s ++ post /\ Forall white pre /\ Forall white post)
  /\ (forall c, head (trim s) = Some c -> ~ white c)
  /\ (forall c, last (trim s) = Some c -> ~ white c)
  /\ trim (trim s) = trim s.
Proof.
  destruct (trimStart_split s) as (pre & Hs & Hpre).
  destruct (trimEnd_split (trimStart s)) as (post & Hs' & Hpost).
  fold (trim s) in Hs'.
  assert (forall c, head (trim s) = Some c -> is_white_space c = false) as Hhead.
  { intros c Hc. destruct (trim s) as [|c' r] eqn:Ht; simplify_eq/=.
    by apply (trimStart_head s c (r ++ post)). }
  assert (forall c, last (trim s) = Some c -> is_white_space c = false) as Hlast.
  { intros c [r Hr]%last_Some. by apply (trimEnd_last (trimStart s) r c). }
  split_and!.
  - exists pre, post. by rewrite <- Hs'.
  - intros c Hc. unfold white. by rewrite (Hhead c Hc).
  - intros c Hc. unfold white. by rewrite (Hlast c Hc).
  - destruct (trim s) as [|c r] eqn:Ht; [done|].
    unfold trim at 1. rewrite (trimStart_fixed c r) by by apply Hhead.
    destruct (last (c :: r)) as [d|] eqn:Hd.
    + pose proof Hd as [r' Hr']%last_Some. rewrite Hr'.
      apply trimEnd_fixed, Hlast. reflexivity.
    + by apply last_None in Hd.
Qed.

Lemma trim_strips_both_ends_witness :
  ~ white 0x4A.
Proof.
  refine (proj1 (proj2 (trim_strips_both_ends (js "  Java  "))) 0x4A _).
  reflexivity.
Defined.

(** ** Runs of the handler *)

Lemma new_events_app w c events :
  new_events w {| cache := c; trace := trace w ++ events |} = events.
Proof. unfold new_events. simpl. apply drop_app_length. Qed.

Lemma new_events_same w : new_events w w = [].
Proof. unfold new_events. apply drop_all. Qed.

Section HandlerRuns.
Variable toLowerCase : jsstring -> jsstring.
Variable network : jsstring -> fetch_outcome.

Lemma search_hit value w :
  trim value <> [] -> local_hits toLowerCase value w <> [] ->
  search toLowerCase network value w
  = (Normal tt,
     {| cache := cache w;
        trace := trace w ++
          [CacheSearched (trim value); ConsoleLog (js "Already in cache")] |}).
Proof.
  unfold local_hits. intros Hval Hhit. unfold search.
  destruct (trim value) as [|c val] eqn:Htrim; [done|].
  unfold bind at 1. unfold cache_search. simpl in Hhit |- *.
  destruct (fold_left _ _ _) as [|r results]; [done|].
  unfold bind, emit, ret. simpl. by rewrite <- app_assoc.
Qed.

Lemma search_failure value w error :
  trim value <> [] -> local_hits toLowerCase value w = [] ->
  fetch_failure (network (trim value)) = Some error ->
  search toLowerCase network value w
  = (Normal tt,
     {| cache := cache w;
        trace := trace w ++
          [CacheSearched (trim value);
           Fetched URL (trim value);
           ConsoleError (js "fetchData:") error;
           ErrorMessageShown (js "fetchData: The server is down or unreachable")] |}).
Proof.
  intros Hval Hmiss Hfail. rewrite search_miss by done.
  unfold try_catch, bind at 1.
  rewrite (fetchData_failure _ _ _ error) by done.
  simpl. unfold ret. simpl. by rewrite <- app_assoc.
Qed.

Lemma search_empty value w :
  trim value <> [] -> local_hits toLowerCase value w = [] ->
  network (trim value) = FetchResolves {| ok := true; json := JsonData [] |} ->
  search toLowerCase network value w
  = (Normal tt,
     {| cache := cache w;
        trace := trace w ++ [CacheSearched (trim value); Fetched URL (trim value)] |}).
Proof.
  intros Hval Hmiss Hnet. rewrite search_miss by done.
  unfold try_catch, bind at 1.
  rewrite (fetchData_success _ _ _ []) by done.
  simpl. unfold ret. simpl. by rewrite <- app_assoc.
Qed.

Lemma search_merge value w data :
  trim value <> [] -> local_hits toLowerCase value w = [] ->
  network (trim value) = FetchResolves {| ok := true; json := JsonData data |} ->
  data <> [] ->
  search toLowerCase network value w
  = (Normal tt,
     {| cache := CacheManagement.add data (cache w);
        trace := trace w ++
          [CacheSearched (trim value);
           Fetched URL (trim value);
           ConsoleWarn (js "Fetched from server");
           CacheAdded (Array data);
           FillOptionsCalled;
           OptionsReplaced
             (CacheManagement.set (CacheManagement.add data (cache w)))] |}).
Proof.
  intros Hval Hmiss Hnet Hdata. rewrite search_miss by done.
  unfold try_catch, bind at 1.
  rewrite (fetchData_success _ _ _ data) by done.
  destruct data as [|d data]; [done|].
  unfold get_length, greater_than_zero, length, when_.
  replace (0 <? N.of_nat (S _)) with true by (symmetry; apply N.ltb_lt; lia).
  unfold cache_add, fillOptions, bind, emit. cbn [cache trace].
  destruct (CacheManagement.set (CacheManagement.add (d :: data) (cache w)))
    as [|x l] eqn:Hset.
  - assert (d ∈ CacheManagement.set (CacheManagement.add (d :: data) (cache w)))
      as Hd by (apply add_elem_of; right; left).
    rewrite Hset in Hd. by apply elem_of_nil in Hd.
  - cbn [length Nat.ltb Nat.leb]. by rewrite <- !app_assoc.
Qed.

(** How a run of the handler ends, by cases. *)
Lemma search_cases value w :
  (trim value = [] /\ search toLowerCase network value w = (Normal tt, w))
  \/ (trim value <> [] /\ local_hits toLowerCase value w <> []
      /\ search toLowerCase network value w
         = (Normal tt,
            {| cache := cache w;
               trace := trace w ++
                 [CacheSearched (trim value); ConsoleLog (js "Already in cache")] |}))
  \/ (trim value <> [] /\ local_hits toLowerCase value w = []
      /\ exists error,
           fetch_failure (network (trim value)) = Some error
           /\ search toLowerCase network value w
              = (Normal tt,
                 {| cache := cache w;
                    trace := trace w ++
                      [CacheSearched (trim value);
                       Fetched URL (trim value);
                       ConsoleError (js "fetchData:") error;
                       ErrorMessageShown
                         (js "fetchData: The server is down or unreachable")] |}))
  \/ (trim value <> [] /\ local_hits toLowerCase value w = []
      /\ network (trim value) = FetchResolves {| ok := true; json := JsonData [] |}
      /\ search toLowerCase network value w
         = (Normal tt,
            {| cache := cache w;
               trace := trace w ++
                 [CacheSearched (trim value); Fetched URL (trim value)] |}))
  \/ (trim value <> [] /\ local_hits toLowerCase value w = []
      /\ exists data,
           data <> []
           /\ network (trim value)
              = FetchResolves {| ok := true; json := JsonData data |}
           /\ search toLowerCase network value w
              = (Normal tt,
                 {| cache := CacheManagement.add data (cache w);
                    trace := trace w ++
                      [CacheSearched (trim value);
                       Fetched URL (trim value);
                       ConsoleWarn (js "Fetched from server");
                       CacheAdded (Array data);
                       FillOptionsCalled;
                       OptionsReplaced
                         (CacheManagement.set
                            (CacheManagement.add data (cache w)))] |})).
Proof.
  destruct (decide (trim value = [])) as [Hval|Hval].
  { left. split; [done|]. unfold search. by rewrite Hval. }
  right. destruct (decide (local_hits toLowerCase value w = [])) as [Hmiss|Hhit].
  2: { left. split_and!; [done..|]. by apply search_hit. }
  right. destruct (fetch_failure (network (trim value))) as [error|] eqn:Hfail.
  { left. split_and!; [done..|]. exists error. split; [done|].
    by apply search_failure. }
  right.
  assert (exists data, network (trim value)
            = FetchResolves {| ok := true; json := JsonData data |})
    as [data Hnet].
  { destruct (network (trim value)) as [reason|[[] [reason|data]]];
      simplify_eq/=. by exists data. }
  destruct data as [|d data].
  - left. split_and!; [done..|]. by apply search_empty.
  - right. split_and!; [done..|]. exists (d :: data). split_and!; [done..|].
    by apply search_merge.
Qed.
End HandlerRuns.

Section HandlerProperties.
Variable toLowerCase : jsstring -> jsstring.
Variable network : jsstring -> fetch_outcome.

(** A run of the handler on a cache of strings, when the fetch fails or
    delivers an array of strings, completes normally whatever the input; it
    only appends to the log, removes no entry from the cache, and leaves an
    ordered cache ordered. *)
Theorem search_completes_and_cache_grows (value : jsstring) (w : world) :
  let w' := snd (search toLowerCase network value w) in
  fst (search toLowerCase network value w) = Normal tt
  /\ trace w `prefix_of` trace w'
  /\ (forall x, x ∈ CacheManagement.set (cache w) ->
                x ∈ CacheManagement.set (cache w'))
  /\ (cache_ordered (cache w) -> cache_ordered (cache w')).
Proof.
  destruct (search_cases toLowerCase network value w)
    as [[_ H]|[(_ & _ & H)|[(_ & _ & error & _ & H)|[(_ & _ & _ & H)
       |(_ & _ & data & _ & _ & H)]]]];
    rewrite H; cbn [fst snd cache trace];
    split_and!; try done; try (by apply prefix_app_r).
  - intros x Hx. apply add_elem_of. by left.
  - intros _. apply cache_ordered_add.
Qed.


Lemma search_new_fetches value w :
  List.filter is_fetch
    (new_events w (snd (search toLowerCase network value w)))
  = if decide (trim value <> [] /\ local_hits toLowerCase value w = [])
    then [Fetched URL (trim value)] else [].
Proof.
  destruct (search_cases toLowerCase network value w)
    as [[? H]|[(? & ? & H)|[(? & ? & error & _ & H)|[(? & ? & _ & H)
       |(? & ? & data & _ & _ & H)]]]];
    rewrite H; cbn [snd]; rewrite ?new_events_app, ?new_events_same;
    case_decide as Hd; simpl;
    solve [done | destruct Hd; done | exfalso; apply Hd; done].
Qed.

(** The service is consulted in exactly one situation: the trimmed input is
    not empty and the cache has no match for it.  Then there is one request,
    to the fixed URL, with the trimmed input. *)
Theorem fetch_exactly_on_miss (value : jsstring) (w : world) :
  let events := new_events w (snd (search toLowerCase network value w)) in
  (existsb is_fetch events = true
   <-> trim value <> [] /\ local_hits toLowerCase value w = [])
  /\ (forall e, e ∈ events -> is_fetch e = true -> e = Fetched URL (trim value))
  /\ (length (List.filter is_fetch events) <= 1)%nat.
Proof.
  pose proof (search_new_fetches value w) as Hf. cbv zeta.
  set (events := new_events _ _) in *.
  assert (forall e, e ∈ events /\ is_fetch e = true
                    <-> e ∈ List.filter is_fetch events) as Hin.
  { intros e. rewrite !list_elem_of_In, filter_In. done. }
  split_and!.
  - rewrite existsb_exists. split.
    + intros (e & He & Hfe). apply list_elem_of_In in He.
      assert (e ∈ List.filter is_fetch events) as He' by by apply Hin.
      rewrite Hf in He'. case_decide; [done|]. by apply elem_of_nil in He'.
    + intros Hmiss. rewrite decide_True in Hf by done.
      exists (Fetched URL (trim value)). split; [|done].
      apply list_elem_of_In, (proj2 (Hin _)). rewrite Hf. by left.
  - intros e He Hfe. assert (e ∈ List.filter is_fetch events) as He' by by apply Hin.
    rewrite Hf in He'. case_decide.
    + by apply list_elem_of_singleton in He'.
    + by apply elem_of_nil in He'.
  - rewrite Hf. case_decide; simpl; lia.
Qed.


(** When the fetch fails or delivers an array of strings, the only message
    a run shows is the fixed text of [fetchData], and only after a failed
    fetch: for these answers the text of the handler's own [catch] does not
    appear, and the run does not clear a message that is on display. *)
Theorem shown_message_is_from_fetchData (value : jsstring) (w : world) (e : event) :
  e ∈ new_events w (snd (search toLowerCase network value w)) ->
  is_error_message e = true ->
  e = ErrorMessageShown (js "fetchData: The server is down or unreachable")
  /\ exists error, fetch_failure (network (trim value)) = Some error.
Proof.
  destruct (search_cases toLowerCase network value w)
    as [[? H]|[(? & ? & H)|[(? & ? & error & Hfail & H)|[(? & ? & _ & H)
       |(? & ? & data & _ & _ & H)]]]];
    rewrite H; cbn [snd]; rewrite ?new_events_app, ?new_events_same;
    rewrite ?elem_of_cons, ?elem_of_nil; intros He Hmsg;
    repeat (destruct He as [->|He]; [try discriminate Hmsg|]); try done.
  split; [done|]. by exists error.
Qed.


(** A successful fetch with at least one name: the names are merged into the
    cache by [add], and the option list is rebuilt from the whole cache after
    the merge, old entries included, in order. *)
Theorem fetch_success_merges_and_rebuilds
    (value : jsstring) (w : world) (data : list jsstring) :
  trim value <> [] ->
  local_hits toLowerCase value w = [] ->
  network (trim value) = FetchResolves {| ok := true; json := JsonData data |} ->
  data <> [] ->
  let merged := CacheManagement.add data (cache w) in
  search toLowerCase network value w
  = (Normal tt,
     {| cache := merged;
        trace := trace w ++
          [CacheSearched (trim value);
           Fetched URL (trim value);
           ConsoleWarn (js "Fetched from server");
           CacheAdded (Array data);
           FillOptionsCalled;
           OptionsReplaced (CacheManagement.set merged)] |})
  /\ cache_ordered merged
  /\ (forall x, x ∈ CacheManagement.set merged
                <-> x ∈ CacheManagement.set (cache w) \/ x ∈ data).
Proof.
  intros Hval Hmiss Hnet Hdata merged. split_and!.
  - by apply search_merge.
  - apply cache_ordered_add.
  - intros x. apply add_elem_of.
Qed.

End HandlerProperties.

Lemma search_completes_and_cache_grows_witness :
  cache_ordered
    (cache (snd (search ascii_toLowerCase network_python (js "p") sample_world))).
Proof.
  apply (search_completes_and_cache_grows ascii_toLowerCase network_python
           (js "p") sample_world).
  apply cache_ordered_add.
Defined.

Lemma fetch_exactly_on_miss_witness :
  existsb is_fetch
    (new_events sample_world
       (snd (search ascii_toLowerCase network_python (js "p") sample_world)))
  = true.
Proof.
  apply (fetch_exactly_on_miss ascii_toLowerCase network_python (js "p") sample_world).
  split; [vm_compute; discriminate | reflexivity].
Defined.

Lemma shown_message_is_from_fetchData_witness :
  ErrorMessageShown (js "fetchData: The server is down or unreachable")
  = ErrorMessageShown (js "fetchData: The server is down or unreachable")
  /\ exists error, fetch_failure (network_forbidden (trim (js "py"))) = Some error.
Proof.
  apply (shown_message_is_from_fetchData ascii_toLowerCase network_forbidden
           (js "py") sample_world).
  - vm_compute. do 3 right. left.
  - reflexivity.
Defined.

Lemma fetch_success_merges_and_rebuilds_witness :
  cache (snd (search ascii_toLowerCase network_python (js "p") sample_world))
  = CacheManagement.add [js "Python"; js "PHP"; js "Python"] sample_cache.
Proof.
  pose proof (fetch_success_merges_and_rebuilds ascii_toLowerCase network_python
                (js "p") sample_world [js "Python"; js "PHP"; js "Python"]) as H.
  destruct H as [H _].
  - vm_compute. discriminate.
  - reflexivity.
  - reflexivity.
  - discriminate.
  - rewrite H. reflexivity.
Defined.

Lemma filter_nil_iff {A} (P : A -> Prop) `{forall x, Decision (P x)} (l : list A) :
  filter P l = [] <-> Forall (fun x => ~ P x) l.
Proof.
  induction l as [|x l IH]; [by split; [constructor|]|].
  rewrite filter_cons, Forall_cons. destruct (decide (P x)).
  - split; [done|]. by intros [? _].
  - rewrite IH. tauto.
Qed.

Lemma local_hits_spec toLowerCase value w :
  local_hits toLowerCase value w
  = search_spec toLowerCase (trim value) (CacheManagement.set (cache w)).
Proof.
  unfold local_hits, CacheManagement.search. cbn [fst].
  by rewrite search_visit_fold.
Qed.

Section RepeatedRuns.
Variable toLowerCase : jsstring -> jsstring.
Variable network : jsstring -> fetch_outcome.

(** The same input a second time, after a fetch that merged names into the
    cache: the second run is answered by the cache when one of the fetched
    names matches the input as a prefix, and asks the service again when
    none does. *)
Theorem repeated_query_after_merge
    (value : jsstring) (w : world) (data : list jsstring) :
  trim value <> [] ->
  local_hits toLowerCase value w = [] ->
  network (trim value) = FetchResolves {| ok := true; json := JsonData data |} ->
  data <> [] ->
  let w1 := snd (search toLowerCase network value w) in
  List.filter is_fetch
    (new_events w1 (snd (search toLowerCase network value w1)))
  = if decide (Exists (matches toLowerCase (trim value)) data)
    then [] else [Fetched URL (trim value)].
Proof.
  intros Hval Hmiss Hnet Hdata w1. rewrite search_new_fetches.
  assert (cache w1 = CacheManagement.add data (cache w)) as Hc.
  { unfold w1. by rewrite (search_merge _ _ _ _ data). }
  assert (local_hits toLowerCase value w1 = []
          <-> ~ Exists (matches toLowerCase (trim value)) data) as Hiff.
  { rewrite local_hits_spec in Hmiss |- *. unfold search_spec in *.
    rewrite filter_nil_iff, Forall_forall in Hmiss.
    rewrite filter_nil_iff, Forall_forall, Exists_exists, Hc.
    split.
    - intros Hnone (x & Hx & Hm). apply (Hnone x); [|done].
      apply add_elem_of. by right.
    - intros Hnone x [Hx|Hx]%add_elem_of Hm; [by apply (Hmiss x)|].
      apply Hnone. by exists x. }
  repeat case_decide; try done.
  - exfalso. tauto.
  - exfalso. tauto.
Qed.

(** A run leaves the world untouched exactly when the input is blank: made
    of white space only, or empty. *)
Theorem handler_noop_iff_blank (value : jsstring) (w : world) :
  search toLowerCase network value w = (Normal tt, w) <-> Forall white value.
Proof.
  rewrite <- trim_empty_iff. split.
  - intros Hrun.
    assert (forall c events, events <> [] ->
              {| cache := c; trace := trace w ++ events |} <> w) as Hne.
    { intros c events Hev Heq. apply (f_equal trace), (f_equal length) in Heq.
      simpl in Heq. rewrite length_app in Heq. destruct events; [done|].
      simpl in Heq. lia. }
    destruct (search_cases toLowerCase network value w)
      as [[? H]|[(? & ? & H)|[(? & ? & error & _ & H)|[(? & ? & _ & H)
         |(? & ? & data & _ & _ & H)]]]]; [done|..];
      rewrite H in Hrun; injection Hrun as Hrun; by apply Hne in Hrun.
  - intros Hval. unfold search. by rewrite Hval.
Qed.

(** [fetchData], when the fetch fails or delivers an array of strings,
    completes normally and leaves the cache alone.  It sends one request; on
    a failure it logs the error, shows its message and returns the error
    object; on an array it returns that very array and shows nothing. *)
Theorem fetchData_never_throws (searchString : jsstring) (w : world) :
  exists v events,
    fetchData network searchString w
    = (Normal v,
       {| cache := cache w;
          trace := trace w ++ Fetched URL searchString :: events |})
    /\ match fetch_failure (network searchString) with
       | Some error =>
           v = ErrorObject error
           /\ events
              = [ConsoleError (js "fetchData:") error;
                 ErrorMessageShown
                   (js "fetchData: The server is down or unreachable")]
       | None =>
           events = []
           /\ exists data,
                network searchString
                = FetchResolves {| ok := true; json := JsonData data |}
                /\ v = Array data
       end.
Proof.
  destruct (fetch_failure (network searchString)) as [error|] eqn:Hfail.
  - exists (ErrorObject error). eexists. split; [|done].
    by apply fetchData_failure.
  - assert (exists data, network searchString
              = FetchResolves {| ok := true; json := JsonData data |})
      as [data Hnet].
    { destruct (network searchString) as [reason|[[] [reason|data]]];
        simplify_eq/=. by exists data. }
    exists (Array data), []. split; [by apply fetchData_success|].
    split; [done|]. by exists data.
Qed.
End RepeatedRuns.

Lemma repeated_query_after_merge_witness :
  let w1 := snd (search ascii_toLowerCase network_python (js "p") sample_world) in
  List.filter is_fetch
    (new_events w1 (snd (search ascii_toLowerCase network_python (js "p") w1)))
  = [].
Proof.
  pose proof (repeated_query_after_merge ascii_toLowerCase network_python
                (js "p") sample_world [js "Python"; js "PHP"; js "Python"]) as H.
  cbv zeta in *. rewrite H.
  - reflexivity.
  - vm_compute. discriminate.
  - reflexivity.
  - reflexivity.
  - discriminate.
Defined.

Lemma handler_noop_iff_blank_witness :
  search ascii_toLowerCase network_python [0x20; 0x09; 0xA0] sample_world
  = (Normal tt, sample_world).
Proof.
  apply (handler_noop_iff_blank ascii_toLowerCase network_python
           [0x20; 0x09; 0xA0] sample_world).
  repeat constructor.
Defined.

(** The service answers a query with a name that does not start with it: the
    name is cached, and the same query is sent again the next time. *)
Example refetch_example :
  let network (_ : jsstring) :=
    FetchResolves {| ok := true; json := JsonData [js "JavaScript"] |} in
  let w1 := snd (search ascii_toLowerCase network (js "script") sample_world) in
  List.filter is_fetch
    (new_events w1 (snd (search ascii_toLowerCase network (js "script") w1)))
  = [Fetched URL (js "script")].
Proof. vm_compute. reflexivity. Qed.

(** ** The selected option *)

Lemma find_bool_decide_eq (val : jsstring) (options : list jsstring) (v : jsstring) :
  List.find (fun x => bool_decide (x = val)) options = Some v
  <-> v = val /\ val ∈ options.
Proof.
  split.
  - intros [Hin ->%bool_decide_eq_true]%find_some. split; [done|].
    by apply list_elem_of_In.
  - intros [-> Hin]. destruct (List.find _ options) as [x|] eqn:Hfind.
    + by apply find_some in Hfind as [_ ->%bool_decide_eq_true].
    + exfalso. apply list_elem_of_In in Hin.
      pose proof (find_none _ _ Hfind _ Hin) as Hno. simpl in Hno.
      by rewrite bool_decide_eq_false in Hno.
Qed.

Lemma getSelectedOption_found input_value options v :
  getSelectedOption input_value options = Some v
  <-> v = trim input_value /\ v <> [] /\ v ∈ options.
Proof.
  unfold getSelectedOption. destruct (trim input_value) as [|c val] eqn:Htrim.
  - split; [done|]. by intros (-> & ? & _).
  - rewrite find_bool_decide_eq. split.
    + by intros [-> ?].
    + by intros (-> & _ & ?).
Qed.

(** [getSelectedOption] returns an option text exactly when the trimmed
    input is not empty and is, as it stands, the text of one of the options;
    the text returned is the trimmed input. *)
Theorem getSelectedOption_exact_match
    (input_value : jsstring) (options : list jsstring) (v : jsstring) :
  getSelectedOption input_value options = Some v
  <-> v = trim input_value /\ v <> [] /\ v ∈ options.
Proof. apply getSelectedOption_found. Qed.

(** [enableBtnShowModal] enables the button exactly when the trimmed input is
    the text of an option, and the line it writes agrees with the button:
    the selected text when enabled, the notice that nothing is selected when
    disabled. *)
Theorem enableBtnShowModal_consistent
    (input_value : jsstring) (options : list jsstring) :
  let view := enableBtnShowModal input_value options in
  (btnShowModal_disabled view = false
   <-> trim input_value <> [] /\ trim input_value ∈ options)
  /\ selectedOption_innerHTML view
     = if btnShowModal_disabled view
       then js "No option selected"
       else js "Selected option: <b>" ++ trim input_value ++ js "</b>".
Proof.
  unfold enableBtnShowModal. cbn [btnShowModal_disabled selectedOption_innerHTML].
  destruct (getSelectedOption input_value options) as [v|] eqn:Hsel.
  - apply getSelectedOption_found in Hsel as (-> & Hne & Hin).
    split; [by split|].
    destruct (trim input_value) as [|c val]; [done|]. reflexivity.
  - split; [|done]. split; [done|]. intros [Hne Hin].
    assert (getSelectedOption input_value options = Some (trim input_value))
      as Hsome by by apply getSelectedOption_found.
    congruence.
Qed.

Lemma getSelectedOption_exact_match_witness :
  getSelectedOption (js " Go ") [js "C"; js "Go"; js "Java"] = Some (js "Go").
Proof.
  apply (getSelectedOption_exact_match (js " Go ") [js "C"; js "Go"; js "Java"]).
  split_and!; [reflexivity | discriminate |].
  vm_compute. right. left.
Defined.

Lemma enableBtnShowModal_consistent_witness :
  btnShowModal_disabled
    (enableBtnShowModal (js " Go ") [js "C"; js "Go"; js "Java"]) = false.
Proof.
  apply (enableBtnShowModal_consistent (js " Go ") [js "C"; js "Go"; js "Java"]).
  split; [vm_compute; discriminate|].
  vm_compute. right. left.
Defined.

Example selection_is_case_sensitive_example :
  getSelectedOption (js "go") [js "C"; js "Go"; js "Java"] = None
  /\ selectedOption_innerHTML (enableBtnShowModal (js "go") [js "C"; js "Go"; js "Java"])
     = js "No option selected".
Proof. vm_compute. split; reflexivity. Qed.

(** ** Calls of a debounced function in general *)

Section DebounceInGeneral.
Context {Event : Type}.
Implicit Types (st : Debounce.loop Event) (e : Event) (t wait : N).





End DebounceInGeneral.


(** ** A session *)

Lemma displayed_options_app log events :
  displayed_options (log ++ events)
  = fold_left
      (fun items e => match e with OptionsReplaced items' => items' | _ => items end)
      events (displayed_options log).
Proof. unfold displayed_options. apply fold_left_app. Qed.

Lemma search_keeps_options_in_step toLowerCase network value w :
  displayed_options (trace w) = CacheManagement.set (cache w) ->
  let w' := snd (search toLowerCase network value w) in
  displayed_options (trace w') = CacheManagement.set (cache w').
Proof.
  intros Hinv.
  destruct (search_cases toLowerCase network value w)
    as [[_ H]|[(_ & _ & H)|[(_ & _ & error & _ & H)|[(_ & _ & _ & H)
       |(_ & _ & data & _ & _ & H)]]]];
    cbv zeta; rewrite H; cbn [snd cache trace]; [done|..];
    by rewrite displayed_options_app.
Qed.

(** Through a whole session, from the loading of the page on, in which every
    fetch fails or delivers an array of strings, the cache stays ordered and
    free of duplicates, and the items of the last replacement of the option
    list are the whole cache, in its order. *)
Theorem session_keeps_cache_and_options
    (toLowerCase : jsstring -> jsstring)
    (inputs : list ((jsstring -> fetch_outcome) * jsstring)) :
  let w := session toLowerCase inputs initial_world in
  cache_ordered (cache w)
  /\ displayed_options (trace w) = CacheManagement.set (cache w).
Proof.
  cbv zeta.
  assert (cache_ordered (cache initial_world)
          /\ displayed_options (trace initial_world)
             = CacheManagement.set (cache initial_world)) as Hinit.
  { split; [apply cache_ordered_constructor | done]. }
  revert Hinit. generalize initial_world.
  induction inputs as [|[network value] inputs IH]; intros w [Hord Hopt]; [done|].
  unfold session in *. cbn [fold_left fst snd]. apply IH. split.
  - destruct (search_cases toLowerCase network value w)
      as [[_ H]|[(_ & _ & H)|[(_ & _ & error & _ & H)|[(_ & _ & _ & H)
         |(_ & _ & data & _ & _ & H)]]]];
      rewrite H; cbn [snd cache]; try done. apply cache_ordered_add.
  - by apply search_keeps_options_in_step.
Qed.

Example session_example :
  let w := session ascii_toLowerCase
             [(network_python, js "p"); (network_forbidden, js "x");
              (network_no_match, js "q"); (network_python, js "PY")]
             initial_world in
  CacheManagement.set (cache w) = [js "PHP"; js "Python"]
  /\ displayed_options (trace w) = [js "PHP"; js "Python"]
  /\ List.filter is_fetch (trace w)
     = [Fetched URL (js "p"); Fetched URL (js "x"); Fetched URL (js "q")].
Proof. vm_compute. repeat split. Qed.

(** ** The order of the entries *)

(** After an [add], whatever the cache was, an entry at an earlier position
    is smaller than any entry at a later one: it is a proper prefix of it, or
    has the smaller code unit where the two first differ. *)
Theorem add_entries_strictly_increasing
    (a : list jsstring) (c : CacheManagement.t) (i j : nat) (x y : jsstring) :
  CacheManagement.set (CacheManagement.add a c) !! i = Some x ->
  CacheManagement.set (CacheManagement.add a c) !! j = Some y ->
  (i < j)%nat ->
  (exists s, s <> [] /\ y = x ++ s)
  \/ (exists p m n x' y', x = p ++ m :: x' /\ y = p ++ n :: y' /\ m < n).
Proof.
  intros Hi Hj Hij. apply IsLessThan_lexicographic.
  set (l := CacheManagement.set (CacheManagement.add a c)) in *.
  assert (str_le x y) as Hle.
  { apply (StronglySorted_app_1_elem_of str_le (take j l) (drop j l)).
    - rewrite take_drop. apply add_StronglySorted.
    - apply list_elem_of_lookup. exists i. by rewrite lookup_take_lt.
    - apply list_elem_of_lookup. exists 0%nat. rewrite lookup_drop.
      by rewrite Nat.add_0_r. }
  destruct (IsLessThan x y) eqn:Hlt; [done|]. exfalso.
  assert (x = y) as -> by by apply IsLessThan_connex.
  pose proof (NoDup_lookup l i j y (add_NoDup a c) Hi Hj). lia.
Qed.

Lemma add_entries_strictly_increasing_witness :
  (exists s, s <> [] /\ js "JavaScript" = js "Java" ++ s)
  \/ (exists p m n x' y',
        js "Java" = p ++ m :: x' /\ js "JavaScript" = p ++ n :: y' /\ m < n).
Proof.
  apply (add_entries_strictly_increasing
           [js "JavaScript"; js "Go"; js "Java"] CacheManagement.constructor 1 2).
  - reflexivity.
  - reflexivity.
  - lia.
Defined.
